(** * TreeDiff: the tree-diffing pipeline item of hercules

    A shallow embedding of [tree_diff.go].  The item keeps the tree of the
    previously consumed commit, produces the list of changes of every commit
    against it (the whole file listing for the first commit) and optionally
    drops the changes under blacklisted directories.

    go-git is an external library: a commit resolves to a tree or fails, a
    tree offers a closable forward iterator over its files, and [DiffTree]
    compares two trees.  Trees and commits carry the outcome of these calls
    as data; [DiffTree] is a parameter of the development. *)

From Stdlib Require Import ZArith String List.
From stdpp Require Import gmap strings list.

Local Open Scope string_scope.
Local Open Scope list_scope.

(** ** Values exchanged with go-git *)

(** Go [error] values.  [io_EOF] is the sentinel [io.EOF]; every other
    error is told apart by its message. *)
Inductive error : Type :=
  | io_EOF
  | errorString (msg : string).

(** [plumbing.Hash] (20 bytes, read as a number) and [filemode.FileMode]
    (a [uint32]). *)
Definition Hash : Type := Z.
Definition FileMode : Type := Z.
Bind Scope Z_scope with Hash FileMode.

(** [object.File], reduced to the fields [Consume] reads. *)
Record File : Type := mkFile {
  file_Name : string;
  file_Mode : FileMode;
  file_Hash : Hash
}.

(** [object.FileIter]: what the remaining calls of [Next] will return.  The
    sequence is finite and ends with an error value, [io_EOF] at the natural
    end of the listing. *)
Inductive FileIter : Type :=
  | IterStop (err : error)
  | IterFile (file : File) (rest : FileIter).

(** [object.Tree]: its identity and the iterator [Files()] hands out. *)
Record Tree : Type := mkTree {
  tree_Hash : Hash;
  tree_Files : FileIter
}.

(** [object.TreeEntry], [object.ChangeEntry] and [object.Change].  Entries
    are values, not pointers: an absent side of a change is the zero value
    [emptyEntry]. *)
Record TreeEntry : Type := mkTreeEntry {
  te_Name : string;
  te_Mode : FileMode;
  te_Hash : Hash
}.

Record ChangeEntry : Type := mkChangeEntry {
  ce_Name : string;
  ce_Tree : option Tree;
  ce_TreeEntry : TreeEntry
}.

Record Change : Type := mkChange {
  From : ChangeEntry;
  To : ChangeEntry
}.

Definition Changes : Type := list Change.

Definition emptyEntry : ChangeEntry :=
  mkChangeEntry "" None (mkTreeEntry "" 0 0).

(** Outcome of a go-git call that returns a pointer and an error. *)
Inductive result (A : Type) : Type :=
  | Ok (a : A)
  | Err (err : error).
Arguments Ok {A} a.
Arguments Err {A} err.

(** [object.Commit]: the only thing asked of a commit is [Tree()]. *)
Record Commit : Type := mkCommit {
  commit_Hash : Hash;
  commit_Tree : result Tree
}.

(** Dynamic values stored in [map[string]interface{}]. *)
Inductive iface : Type :=
  | I_nil
  | I_bool (b : bool)
  | I_int (n : Z)
  | I_string (s : string)
  | I_strings (l : list string)
  | I_commit (c : Commit)
  | I_changes (d : Changes).

(** A Go call either returns or panics. *)
Inductive outcome (A : Type) : Type :=
  | Returned (a : A)
  | Panicked.
Arguments Returned {A} a.
Arguments Panicked {A}.

(** Sequencing of calls that may panic, with stdpp's [x ← o; k]. *)
Global Instance outcome_ret : MRet outcome := fun A a => Returned a.

Global Instance outcome_bind : MBind outcome := fun A B k o =>
  match o with
  | Returned a => k a
  | Panicked => Panicked
  end.

(** Indexing a Go map gives the zero value for a missing key. *)
Definition map_index (m : gmap string iface) (key : string) : iface :=
  default I_nil (m !! key).

(** Unchecked type assertions [v.(T)]. *)
Definition assert_bool (v : iface) : outcome bool :=
  match v with I_bool b => Returned b | _ => Panicked end.

Definition assert_strings (v : iface) : outcome (list string) :=
  match v with I_strings l => Returned l | _ => Panicked end.

Definition assert_commit (v : iface) : outcome Commit :=
  match v with I_commit c => Returned c | _ => Panicked end.

(** ** The pipeline item *)

Record TreeDiff : Type := mkTreeDiff {
  previousTree : option Tree;
  SkipDirs : list string
}.

Definition DependencyTreeChanges : string := "changes".
Definition ConfigTreeDiffSkipBlacklist : string := "TreeDiff.SkipVendor".
Definition ConfigTreeDiffBlacklistedDirs : string := "TreeDiff.BlacklistedDirs".

Definition defaultBlacklistedDirs : list string :=
  ["vendor/"; "vendors/"; "node_modules/"].

(** The zero value registered by [init]. *)
Definition newTreeDiff : TreeDiff := mkTreeDiff None [].

(** [strings.HasPrefix s prefix]. *)
Definition HasPrefix (s prefix : string) : bool := String.prefix prefix s.

(** ** The blacklist filter (lines 125-139) *)

(** The inner loop over [SkipDirs]: true when it reaches [continue OUTER]. *)
Fixpoint skipped (dirs : list string) (change : Change) : bool :=
  match dirs with
  | [] => false
  | dir :: dirs' =>
      if HasPrefix (ce_Name (To change)) dir
         || HasPrefix (ce_Name (From change)) dir
      then true
      else skipped dirs' change
  end.

(** The outer loop.  [filteredDiff] shares the backing array of [diff]:
    the array is [arr], the loop reads position [i], and [append] writes
    position [j], the current length of [filteredDiff].  [n] counts the
    iterations that are left. *)
Fixpoint filterLoop (dirs : list string) (n i j : nat) (arr : list Change)
  : nat * list Change :=
  match n with
  | O => (j, arr)
  | S n' =>
      match arr !! i with
      | Some change =>
          if skipped dirs change
          then filterLoop dirs n' (S i) j arr
          else filterLoop dirs n' (S i) (S j) (<[j := change]> arr)
      | None => (j, arr)
      end
  end.

Definition filterInPlace (dirs : list string) (diff : Changes) : Changes :=
  let '(j, arr) := filterLoop dirs (length diff) 0 0 diff in
  take j arr.

(** The whole filter stage, guard included. *)
Definition applyFilter (diff : Changes) (dirs : list string) : Changes :=
  if (0 <? length dirs)%nat then filterInPlace dirs diff else diff.

(** The changes the inner loop lets through. *)
Definition kept (dirs : list string) (change : Change) : bool :=
  negb (skipped dirs change).

(** ** The backing store as seen from [Consume] *)

(** Calls on file iterators are the only ones whose order matters: an
    iterator holds store resources from [Files()] until [Close()].  The
    store is the log of these calls, oldest first. *)
Inductive event : Type :=
  | EvFiles
  | EvNext
  | EvClose.

Definition World : Type := list event.

Definition Git (A : Type) : Type := World -> A * World.

Global Instance Git_ret : MRet Git := fun A a w => (a, w).

Global Instance Git_bind : MBind Git := fun A B k m w =>
  let '(a, w') := m w in k a w'.

Definition emit (e : event) : Git unit := fun w => (tt, w ++ [e]).

(** Iterators opened and not yet closed. *)
Fixpoint openIters (w : World) (n : nat) : nat :=
  match w with
  | [] => n
  | EvFiles :: w' => openIters w' (S n)
  | EvNext :: w' => openIters w' n
  | EvClose :: w' => openIters w' (pred n)
  end.

(** [tree.Files()], [fileIter.Next()] and [fileIter.Close()]. *)
Definition Files (tree : Tree) : Git FileIter :=
  _ ← emit EvFiles; mret (tree_Files tree).

Definition Next (fileIter : FileIter)
  : Git (option File * option error * FileIter) :=
  _ ← emit EvNext;
  mret (match fileIter with
        | IterFile file rest => (Some file, None, rest)
        | IterStop err => (None, Some err, fileIter)
        end).

Definition Close (fileIter : FileIter) : Git unit := emit EvClose.

(** [defer cleanup] in a function whose body is [body]. *)
Definition defer {A : Type} (cleanup : Git unit) (body : Git A) : Git A :=
  r ← body; _ ← cleanup; mret r.

(** The change appended for one file (lines 113-115): [From] is left at its
    zero value. *)
Definition insertion (tree : Tree) (file : File) : Change :=
  mkChange emptyEntry
    (mkChangeEntry (file_Name file) (Some tree)
       (mkTreeEntry (file_Name file) (file_Mode file) (file_Hash file))).

(** The [for] loop of lines 105-116, by recursion on what the iterator has
    left; [drain_Next_file] and [drain_Next_error] below give its equations
    in terms of [Next]. *)
Fixpoint drain (tree : Tree) (fileIter : FileIter) (diff : Changes)
  : Git (Changes * option error) :=
  match fileIter with
  | IterFile file rest =>
      _ ← emit EvNext; drain tree rest (diff ++ [insertion tree file])
  | IterStop err =>
      _ ← emit EvNext;
      mret (diff, match err with io_EOF => None | _ => Some err end)
  end.

(** The function literal of lines 102-118; it appends to the [diff] of the
    enclosing function and returns the error. *)
Definition listFiles (tree : Tree) (diff : Changes)
  : Git (Changes * option error) :=
  fileIter ← Files tree;
  defer (Close fileIter) (drain tree fileIter diff).

(** ** Methods of [TreeDiff] *)

Definition Configure (treediff : TreeDiff) (facts : gmap string iface)
  : outcome TreeDiff :=
  match facts !! ConfigTreeDiffSkipBlacklist with
  | Some val =>
      assert_bool val ≫= fun b : bool =>
      if b
      then dirs ← assert_strings (map_index facts ConfigTreeDiffBlacklistedDirs);
           mret (mkTreeDiff (previousTree treediff) dirs)
      else mret treediff
  | None => mret treediff
  end.

(** The repository argument is not used. *)
Definition Initialize (treediff : TreeDiff) : TreeDiff :=
  mkTreeDiff None (SkipDirs treediff).

(** What [Consume] hands back: the result map (nil as [None]) and the
    error (nil as [None]). *)
Definition Returns : Type := option (gmap string iface) * option error.

(** Lines 123-140: store the tree, filter, build the result map. *)
Definition deliver (treediff : TreeDiff) (tree : Tree) (diff : Changes)
  : outcome Returns * TreeDiff :=
  let treediff' := mkTreeDiff (Some tree) (SkipDirs treediff) in
  let diff' := applyFilter diff (SkipDirs treediff') in
  (Returned (Some {[ DependencyTreeChanges := I_changes diff' ]}, None),
   treediff').

Section Consume.

(** [object.DiffTree], a black box. *)
Variable DiffTree : Tree -> Tree -> Changes * option error.

Definition Consume (treediff : TreeDiff) (deps : gmap string iface)
  : Git (outcome Returns * TreeDiff) :=
  match assert_commit (map_index deps "commit") with
  | Panicked => mret (Panicked, treediff)
  | Returned commit =>
      match commit_Tree commit with
      | Err err => mret (Returned (None, Some err), treediff)
      | Ok tree =>
          match previousTree treediff with
          | Some prev =>
              match DiffTree prev tree with
              | (_, Some err) => mret (Returned (None, Some err), treediff)
              | (diff, None) => mret (deliver treediff tree diff)
              end
          | None =>
              '(diff, err) ← listFiles tree [];
              match err with
              | Some err => mret (Returned (None, Some err), treediff)
              | None => mret (deliver treediff tree diff)
              end
          end
      end
  end.

(** A series of [Consume] calls on one item: the returns of the calls, the
    item and the store at the end. *)
Fixpoint ConsumeAll (treediff : TreeDiff) (calls : list (gmap string iface))
  : Git (list (outcome Returns) * TreeDiff) :=
  match calls with
  | [] => mret ([], treediff)
  | deps :: calls' =>
      '(r, treediff') ← Consume treediff deps;
      '(rs, treediff'') ← ConsumeAll treediff' calls';
      mret (r :: rs, treediff'')
  end.

End Consume.

(** ** Reading iterators and changes *)

(** The files an iterator yields before it stops, and the error it stops
    with. *)
Fixpoint iterFiles (fileIter : FileIter) : list File :=
  match fileIter with
  | IterStop _ => []
  | IterFile file rest => file :: iterFiles rest
  end.

Fixpoint iterStop (fileIter : FileIter) : error :=
  match fileIter with
  | IterStop err => err
  | IterFile _ rest => iterStop rest
  end.

(** What the listing loop reports: the error the iterator stops with,
    unless it is the end of the listing. *)
Definition stopError (fileIter : FileIter) : option error :=
  match iterStop fileIter with
  | io_EOF => None
  | err => Some err
  end.

(** The calls a whole listing of [tree] adds to the store: [Files()], one
    [Next()] per file and the one that stops, [Close()]. *)
Definition enumerationLog (tree : Tree) : list event :=
  [EvFiles] ++ repeat EvNext (S (length (iterFiles (tree_Files tree))))
  ++ [EvClose].



Global Instance error_eq_dec : EqDecision error.
Proof. solve_decision. Defined.

Global Instance File_eq_dec : EqDecision File.
Proof. solve_decision. Defined.

Global Instance FileIter_eq_dec : EqDecision FileIter.
Proof.
  intros x. induction x as [e | f r IH]; intros [e' | f' r'];
    try (right; congruence).
  - destruct (decide (e = e')); [left | right]; congruence.
  - destruct (decide (f = f')), (IH r'); [left | right ..]; congruence.
Defined.

Global Instance Tree_eq_dec : EqDecision Tree.
Proof. solve_decision. Defined.

Global Instance TreeEntry_eq_dec : EqDecision TreeEntry.
Proof. solve_decision. Defined.

Global Instance ChangeEntry_eq_dec : EqDecision ChangeEntry.
Proof. solve_decision. Defined.

Global Instance Change_eq_dec : EqDecision Change.
Proof. solve_decision. Defined.

(** ** The filter in the words of the specification *)

(** A side of a change is present when it is not the zero entry. *)
Definition present (entry : ChangeEntry) : bool :=
  negb (bool_decide (entry = emptyEntry)).

(** Every change has at least one side. *)
Definition wellFormed (change : Change) : Prop :=
  present (From change) || present (To change) = true.

(** A present path of the change begins with [dir]. *)
Definition touches (dir : string) (change : Change) : bool :=
  (present (From change) && HasPrefix (ce_Name (From change)) dir)
  || (present (To change) && HasPrefix (ce_Name (To change)) dir).

(** Neither path begins with any prefix of the set. *)
Definition retained (dirs : list string) (change : Change) : bool :=
  negb (existsb (fun dir => touches dir change) dirs).

Definition retainedChanges (changes : Changes) (dirs : list string) : Changes :=
  List.filter (retained dirs) changes.

(** ** The failures of [Consume] and its paths *)

Section Failures.

Variable DiffTree : Tree -> Tree -> Changes * option error.

(** Tree resolution, enumeration and diff failures. *)
Inductive ConsumeFails (treediff : TreeDiff) (deps : gmap string iface)
  : error -> Prop :=
  | TreeResolutionError commit err :
      deps !! "commit" = Some (I_commit commit) ->
      commit_Tree commit = Err err ->
      ConsumeFails treediff deps err
  | EnumerationError commit tree :
      deps !! "commit" = Some (I_commit commit) ->
      commit_Tree commit = Ok tree ->
      previousTree treediff = None ->
      iterStop (tree_Files tree) <> io_EOF ->
      ConsumeFails treediff deps (iterStop (tree_Files tree))
  | DiffComputationError commit tree prev partial err :
      deps !! "commit" = Some (I_commit commit) ->
      commit_Tree commit = Ok tree ->
      previousTree treediff = Some prev ->
      DiffTree prev tree = (partial, Some err) ->
      ConsumeFails treediff deps err.

(** The six ways through [Consume]. *)
Inductive ConsumePath (treediff : TreeDiff) (deps : gmap string iface)
  (w : World) : outcome Returns * TreeDiff * World -> Prop :=
  | path_panic :
      (forall commit, deps !! "commit" <> Some (I_commit commit)) ->
      ConsumePath treediff deps w (Panicked, treediff, w)
  | path_unresolved commit err :
      deps !! "commit" = Some (I_commit commit) ->
      commit_Tree commit = Err err ->
      ConsumePath treediff deps w (Returned (None, Some err), treediff, w)
  | path_first commit tree :
      deps !! "commit" = Some (I_commit commit) ->
      commit_Tree commit = Ok tree ->
      previousTree treediff = None ->
      iterStop (tree_Files tree) = io_EOF ->
      ConsumePath treediff deps w
        (deliver treediff tree
           (map (insertion tree) (iterFiles (tree_Files tree))),
         w ++ enumerationLog tree)
  | path_first_broken commit tree :
      deps !! "commit" = Some (I_commit commit) ->
      commit_Tree commit = Ok tree ->
      previousTree treediff = None ->
      iterStop (tree_Files tree) <> io_EOF ->
      ConsumePath treediff deps w
        (Returned (None, Some (iterStop (tree_Files tree))), treediff,
         w ++ enumerationLog tree)
  | path_diff commit tree prev diff :
      deps !! "commit" = Some (I_commit commit) ->
      commit_Tree commit = Ok tree ->
      previousTree treediff = Some prev ->
      DiffTree prev tree = (diff, None) ->
      ConsumePath treediff deps w (deliver treediff tree diff, w)
  | path_diff_failed commit tree prev partial err :
      deps !! "commit" = Some (I_commit commit) ->
      commit_Tree commit = Ok tree ->
      previousTree treediff = Some prev ->
      DiffTree prev tree = (partial, Some err) ->
      ConsumePath treediff deps w (Returned (None, Some err), treediff, w).

End Failures.

(** ** A result as the filter would leave it *)

Definition filterValue (dirs : list string) (v : iface) : iface :=
  match v with
  | I_changes d => I_changes (applyFilter d dirs)
  | _ => v
  end.

Definition filterReturns (dirs : list string) (r : outcome Returns)
  : outcome Returns :=
  match r with
  | Returned (Some m, err) => Returned (Some (filterValue dirs <$> m), err)
  | _ => r
  end.

(** ** Sample data *)

Definition sampleFile (name : string) (hash : Hash) : File :=
  mkFile name 33188 hash.

Fixpoint iterOf (files : list File) (stop : error) : FileIter :=
  match files with
  | [] => IterStop stop
  | file :: files' => IterFile file (iterOf files' stop)
  end.

(** The trees of the scenarios: [a.txt] and [b/c.txt]; the same with the
    content of [a.txt] changed; a tree with a vendored file; a tree whose
    listing breaks off. *)
Definition tree1 : Tree :=
  mkTree 1 (iterOf [sampleFile "a.txt" 10; sampleFile "b/c.txt" 11] io_EOF).

Definition tree2 : Tree :=
  mkTree 2 (iterOf [sampleFile "a.txt" 20; sampleFile "b/c.txt" 11] io_EOF).

Definition vendorTree : Tree :=
  mkTree 3 (iterOf [sampleFile "main.go" 30; sampleFile "vendor/lib.go" 31]
              io_EOF).

Definition brokenTree : Tree :=
  mkTree 4 (iterOf [sampleFile "a.txt" 10] (errorString "object not found")).

Definition depsOf (hash : Hash) (tree : result Tree) : gmap string iface :=
  {[ "commit" := I_commit (mkCommit hash tree) ]}.

Definition entryOf (tree : Tree) (file : File) : ChangeEntry :=
  mkChangeEntry (file_Name file) (Some tree)
    (mkTreeEntry (file_Name file) (file_Mode file) (file_Hash file)).

(** A comparison of two trees by their listings: deletions and
    modifications in the order of the old listing, then insertions in the
    order of the new one.  It fails when a listing does. *)
Definition lookupFile (name : string) (files : list File) : option File :=
  List.find (fun f => String.eqb (file_Name f) name) files.

Definition sampleDiffTree (a b : Tree) : Changes * option error :=
  let fa := iterFiles (tree_Files a) in
  let fb := iterFiles (tree_Files b) in
  match iterStop (tree_Files a), iterStop (tree_Files b) with
  | io_EOF, io_EOF =>
      (omap (fun f =>
               match lookupFile (file_Name f) fb with
               | None => Some (mkChange (entryOf a f) emptyEntry)
               | Some g =>
                   if bool_decide (f = g) then None
                   else Some (mkChange (entryOf a f) (entryOf b g))
               end) fa
       ++ omap (fun g =>
                  match lookupFile (file_Name g) fa with
                  | None => Some (mkChange emptyEntry (entryOf b g))
                  | Some _ => None
                  end) fb,
       None)
  | io_EOF, err => ([], Some err)
  | err, _ => ([], Some err)
  end.

(** The two options as the host supplies them. *)
Definition factsOf (skip : bool) (dirs : list string) : gmap string iface :=
  {[ ConfigTreeDiffSkipBlacklist := I_bool skip;
     ConfigTreeDiffBlacklistedDirs := I_strings dirs ]}.

(** The scenario of the specification: blacklist [vendor/], changes on
    [vendor/lib.go] (new), [main.go] (new) and [vendor/old.go] (old). *)
Definition scenarioChanges : Changes :=
  [ mkChange emptyEntry (entryOf vendorTree (sampleFile "vendor/lib.go" 31));
    mkChange emptyEntry (entryOf vendorTree (sampleFile "main.go" 30));
    mkChange (entryOf tree1 (sampleFile "vendor/old.go" 32)) emptyEntry ].

(** ** The published interface of the item *)

(** Lines 34-51. *)
Definition Name : string := "TreeDiff".
Definition Provides : list string := [DependencyTreeChanges].
Definition Requires : list string := [].

(** Modelled from the spec: [ConfigurationOption] and its type tags are
    declared outside [tree_diff.go].  The record has the five fields the
    literal of lines 55-66 fills; of the tags only the two used there are
    kept.  [Default] is an [interface{}]. *)
Inductive ConfigurationOptionType : Type :=
  | BoolConfigurationOption
  | StringsConfigurationOption.

Record ConfigurationOption : Type := mkConfigurationOption {
  co_Name : string;
  co_Description : string;
  co_Flag : string;
  co_Type : ConfigurationOptionType;
  co_Default : iface
}.

(** The double quote character, for the description of line 62. *)
Definition quote : string := String (Ascii.ascii_of_nat 34) EmptyString.

Definition ListConfigurationOptions : list ConfigurationOption :=
  [ mkConfigurationOption ConfigTreeDiffSkipBlacklist
      "Skip blacklist directories."
      "skip-blacklist" BoolConfigurationOption (I_bool false);
    mkConfigurationOption ConfigTreeDiffBlacklistedDirs
      (String.append "List of blacklist directories. Separated by comma "
         (String.append quote (String.append "," (String.append quote "."))))
      "blacklisted-dirs" StringsConfigurationOption
      (I_strings defaultBlacklistedDirs) ].

(** A dynamic value has the Go type an option announces. *)
Definition hasType (t : ConfigurationOptionType) (v : iface) : bool :=
  match t, v with
  | BoolConfigurationOption, I_bool _ => true
  | StringsConfigurationOption, I_strings _ => true
  | _, _ => false
  end.

(** The facts a host gets from the defaults of a list of options. *)
Definition defaultFacts (options : list ConfigurationOption)
  : gmap string iface :=
  list_to_map (map (fun o => (co_Name o, co_Default o)) options).

(** ** Reading a series of calls *)

(** A call succeeded: a result map and no error. *)
Definition succeeded (r : outcome Returns) : bool :=
  match r with
  | Returned (Some _, None) => true
  | _ => false
  end.

(** A call returned an error. *)
Definition failed (r : outcome Returns) : bool :=
  match r with
  | Returned (_, Some _) => true
  | _ => false
  end.

(** The tree the commit under [deps] resolves to, when there is one. *)
Definition resolvedTree (deps : gmap string iface) : option Tree :=
  match deps !! "commit" with
  | Some (I_commit commit) =>
      match commit_Tree commit with
      | Ok tree => Some tree
      | Err _ => None
      end
  | _ => None
  end.

(** The tree of the last call that succeeded, [prev] when none did. *)
Fixpoint lastSucceeded (prev : option Tree)
    (calls : list (gmap string iface)) (rs : list (outcome Returns))
  : option Tree :=
  match calls, rs with
  | deps :: calls', r :: rs' =>
      lastSucceeded (if succeeded r then resolvedTree deps else prev) calls' rs'
  | _, _ => prev
  end.

(** The calls of a series that succeeded, given the returns of the
    series. *)
Fixpoint successfulCalls (calls : list (gmap string iface))
    (rs : list (outcome Returns)) : list (gmap string iface) :=
  match calls, rs with
  | deps :: calls', r :: rs' =>
      if succeeded r then deps :: successfulCalls calls' rs'
      else successfulCalls calls' rs'
  | _, _ => []
  end.

(** * Properties *)

(** ** The filter *)

Section FilterProperties.

Variable dirs : list string.

Lemma filter_sublist (f : Change -> bool) (l : Changes) :
  sublist (List.filter f l) l.
Proof.
  induction l as [| c l IH]; simpl.
  - constructor.
  - destruct (f c); by constructor.
Qed.

Lemma filter_twice (f : Change -> bool) (l : Changes) :
  List.filter f (List.filter f l) = List.filter f l.
Proof.
  induction l as [| c l IH]; simpl; [done |].
  destruct (f c) eqn:Hc; simpl; [rewrite Hc; by f_equal | done].
Qed.

(** The compaction never writes past the position it reads: after any
    number of iterations the first [j] cells hold the changes kept so far
    and the cells from [i] on are untouched. *)
Lemma filterLoop_inv (n : nat) :
  forall (i j : nat) (arr : list Change),
    j <= i -> i + n = length arr ->
    take (filterLoop dirs n i j arr).1 (filterLoop dirs n i j arr).2
    = take j arr ++ List.filter (kept dirs) (drop i arr).
Proof.
  induction n as [| n IH]; intros i j arr Hji Hlen; simpl.
  - rewrite drop_ge; [| lia]. by rewrite app_nil_r.
  - destruct (lookup_lt_is_Some_2 arr i ltac:(lia)) as [c Hc].
    rewrite Hc. rewrite (drop_S _ _ _ Hc). simpl.
    change (kept dirs c) with (negb (skipped dirs c)).
    destruct (skipped dirs c) eqn:Hs; simpl.
    + apply IH; lia.
    + rewrite IH; [| lia | rewrite length_insert; lia].
      rewrite drop_insert_lt; [| lia].
      rewrite (take_S_r _ _ c).
      * rewrite take_insert_ge; [| lia]. by rewrite <- app_assoc.
      * apply list_lookup_insert_eq. lia.
Qed.

(** The backing array keeps its length: [append] never reallocates. *)
Lemma filterLoop_length (n : nat) :
  forall (i j : nat) (arr : list Change),
    length (filterLoop dirs n i j arr).2 = length arr.
Proof.
  induction n as [| n IH]; intros i j arr; simpl; [done |].
  destruct (arr !! i) as [c |]; [| done].
  destruct (skipped dirs c); rewrite IH; [done | apply length_insert].
Qed.

Lemma filterInPlace_filter (diff : Changes) :
  filterInPlace dirs diff = List.filter (kept dirs) diff.
Proof.
  unfold filterInPlace.
  pose proof (filterLoop_inv (length diff) 0 0 diff (le_n 0) eq_refl) as H.
  destruct (filterLoop dirs (length diff) 0 0 diff) as [j arr].
  simpl in H. by rewrite H.
Qed.

End FilterProperties.

Lemma applyFilter_filter (diff : Changes) (dirs : list string) :
  dirs <> [] -> applyFilter diff dirs = List.filter (kept dirs) diff.
Proof.
  intros Hne. unfold applyFilter. destruct dirs as [| d ds]; [done |].
  simpl. apply filterInPlace_filter.
Qed.

Lemma applyFilter_sublist (diff : Changes) (dirs : list string) :
  sublist (applyFilter diff dirs) diff.
Proof.
  destruct dirs as [| d ds]; [done |].
  rewrite applyFilter_filter; [| done]. apply filter_sublist.
Qed.

Lemma HasPrefix_empty (dir : string) :
  HasPrefix "" dir = true -> dir = "".
Proof. by destruct dir. Qed.

Lemma HasPrefix_of_empty (s : string) : HasPrefix s "" = true.
Proof. by destruct s. Qed.

Lemma absent_Name (entry : ChangeEntry) :
  present entry = false -> ce_Name entry = "".
Proof.
  unfold present. intros H. apply negb_false_iff, bool_decide_eq_true in H.
  by subst.
Qed.

(** On a change with at least one side, the test of the code and the test
    of the specification agree. *)
Lemma skipped_touches (dirs : list string) (change : Change) :
  wellFormed change ->
  skipped dirs change = existsb (fun dir => touches dir change) dirs.
Proof.
  intros Hwf. induction dirs as [| dir dirs IH]; simpl; [done |].
  rewrite <- IH. clear IH.
  assert (HasPrefix (ce_Name (To change)) dir
          || HasPrefix (ce_Name (From change)) dir = touches dir change)
    as ->; [| by destruct (touches dir change)].
  unfold touches, wellFormed in *.
  destruct (present (From change)) eqn:HF, (present (To change)) eqn:HT;
    simpl in *; try done.
  - by rewrite orb_comm.
  - rewrite (absent_Name _ HT), orb_false_r.
    destruct (HasPrefix "" dir) eqn:Hp; simpl; [| done].
    apply HasPrefix_empty in Hp as ->. by rewrite HasPrefix_of_empty.
  - rewrite (absent_Name _ HF).
    destruct (HasPrefix "" dir) eqn:Hp; [| by rewrite orb_false_r].
    apply HasPrefix_empty in Hp as ->. by rewrite HasPrefix_of_empty.
Qed.

Lemma filter_ext_Forall (f g : Change -> bool) (l : Changes) :
  Forall (fun c => f c = g c) l -> List.filter f l = List.filter g l.
Proof.
  induction 1 as [| c l Hc _ IH]; simpl; [done |].
  rewrite Hc, IH. done.
Qed.

(** C3: with a non-empty blacklist the filter returns exactly the changes
    neither of whose present paths begins with a blacklisted prefix, in
    their original order and without repeating any: the result is the
    sub-list selected by [retained]. *)
Theorem applyFilter_retained (changes : Changes) (dirs : list string) :
  dirs <> [] ->
  Forall wellFormed changes ->
  applyFilter changes dirs = retainedChanges changes dirs
  /\ sublist (applyFilter changes dirs) changes.
Proof.
  intros Hne Hwf. split; [| apply applyFilter_sublist].
  rewrite applyFilter_filter; [| done].
  apply filter_ext_Forall. eapply Forall_impl; [exact Hwf |].
  intros c Hc. unfold kept, retained. by rewrite skipped_touches.
Qed.

Lemma applyFilter_retained_witness :
  applyFilter scenarioChanges ["vendor/"]
  = [mkChange emptyEntry (entryOf vendorTree (sampleFile "main.go" 30))]
  /\ sublist (applyFilter scenarioChanges ["vendor/"]) scenarioChanges.
Proof.
  destruct (applyFilter_retained scenarioChanges ["vendor/"]) as [H1 H2].
  - discriminate.
  - repeat constructor.
  - split; [rewrite H1; reflexivity | exact H2].
Defined.

(** C7: with an empty blacklist the filter returns its input unchanged,
    and so the last stage of [Consume] hands over the changes it was
    given. *)
Theorem applyFilter_empty (changes : Changes) :
  applyFilter changes [] = changes
  /\ forall prev tree,
       (deliver (mkTreeDiff prev []) tree changes).1
       = Returned
           (Some {[ DependencyTreeChanges := I_changes changes ]}, None).
Proof. split; [| intros prev tree]; reflexivity. Qed.

(** C8: filtering twice with the same blacklist is filtering once. *)
Theorem applyFilter_idempotent (changes : Changes) (dirs : list string) :
  applyFilter (applyFilter changes dirs) dirs = applyFilter changes dirs.
Proof.
  destruct dirs as [| d ds]; [reflexivity |].
  rewrite !applyFilter_filter by done.
  apply filter_twice.
Qed.

(** ** The first-call enumeration *)

Lemma drain_Next_file tree fileIter diff w file rest w' :
  Next fileIter w = (Some file, None, rest, w') ->
  drain tree fileIter diff w
  = drain tree rest (diff ++ [insertion tree file]) w'.
Proof. destruct fileIter; simpl; intros [= <- <- <-]; reflexivity. Qed.

Lemma drain_Next_error tree fileIter diff w file err rest w' :
  Next fileIter w = (file, Some err, rest, w') ->
  drain tree fileIter diff w
  = (diff, match err with io_EOF => None | _ => Some err end, w').
Proof. destruct fileIter; simpl; intros [= <- <- <- <-]; reflexivity. Qed.

(** What the loop leaves behind: the changes of the files it met, the
    error unless it is [io_EOF], and one [Next] per file plus the last. *)
Lemma drain_spec tree fileIter :
  forall diff w,
    drain tree fileIter diff w
    = (diff ++ map (insertion tree) (iterFiles fileIter),
       stopError fileIter,
       w ++ repeat EvNext (S (length (iterFiles fileIter)))).
Proof.
  induction fileIter as [err | file rest IH]; intros diff w.
  - simpl. unfold mbind, Git_bind, emit, mret, Git_ret, stopError. simpl.
    rewrite app_nil_r. by destruct err.
  - simpl. unfold mbind, Git_bind, emit. rewrite IH.
    unfold stopError. simpl. by rewrite <- !app_assoc.
Qed.

Lemma listFiles_spec tree diff w :
  listFiles tree diff w
  = (diff ++ map (insertion tree) (iterFiles (tree_Files tree)),
     stopError (tree_Files tree),
     w ++ enumerationLog tree).
Proof.
  unfold listFiles, defer, Files, Close, mbind, Git_bind, emit, mret, Git_ret.
  rewrite drain_spec. unfold enumerationLog. by rewrite <- !app_assoc.
Qed.

Lemma openIters_app w : forall evs n,
  openIters (w ++ evs) n = openIters evs (openIters w n).
Proof.
  induction w as [| e w IH]; intros evs n; simpl; [done |].
  destruct e; apply IH.
Qed.

Lemma openIters_Next k : forall n evs,
  openIters (repeat EvNext k ++ evs) n = openIters evs n.
Proof. induction k as [| k IH]; intros n evs; simpl; [done | apply IH]. Qed.

Lemma openIters_enumerationLog tree n :
  openIters (enumerationLog tree) n = n.
Proof.
  unfold enumerationLog.
  change ([EvFiles] ++ ?l) with (EvFiles :: l).
  cbn [openIters]. by rewrite openIters_Next.
Qed.

(** ** [Consume], case by case *)

Section ConsumeCases.

Variable DiffTree : Tree -> Tree -> Changes * option error.

Lemma Consume_path treediff deps w :
  ConsumePath DiffTree treediff deps w (Consume DiffTree treediff deps w).
Proof.
  unfold Consume, map_index.
  destruct (deps !! "commit") as [v |] eqn:Hdeps; simpl;
    [destruct v as [| | | | | commit |]; simpl |];
    try (apply path_panic; intros c; congruence).
  destruct (commit_Tree commit) as [tree | err] eqn:Htree.
  2: { eapply path_unresolved; eauto. }
  destruct (previousTree treediff) as [prev |] eqn:Hprev.
  - destruct (DiffTree prev tree) as [diff [err |]] eqn:Hdiff.
    + eapply path_diff_failed; eauto.
    + eapply path_diff; eauto.
  - unfold mbind, Git_bind. rewrite listFiles_spec. simpl.
    unfold stopError.
    destruct (iterStop (tree_Files tree)) eqn:Hstop.
    + eapply path_first; eauto.
    + rewrite <- Hstop. eapply path_first_broken; eauto. congruence.
Qed.

End ConsumeCases.

(** ** Properties of [Consume] *)

Section ConsumeProperties.

Variable DiffTree : Tree -> Tree -> Changes * option error.

Ltac consume_paths treediff deps w :=
  destruct (Consume_path DiffTree treediff deps w)
    as [ Hnone
       | commit' err' Hdeps' Hres'
       | commit' tree' Hdeps' Hres' Hprev' Hstop'
       | commit' tree' Hdeps' Hres' Hprev' Hstop'
       | commit' tree' prev' diff' Hdeps' Hres' Hprev' Hdiff'
       | commit' tree' prev' partial' err' Hdeps' Hres' Hprev' Hdiff' ];
  unfold deliver in *; simpl in *.




(** C2, amended: when two consecutive calls of [Consume] succeed on the
    snapshots T1 and T2, the changes of the second call are
    [DiffTree T1 T2] passed through the blacklist filter, whatever the item
    held before the first call; with an empty blacklist they are
    [DiffTree T1 T2] itself. *)
Theorem Consume_second_commit treediff deps1 deps2 c1 c2 T1 T2
    w m1 treediff1 w1 m2 treediff2 w2 :
  deps1 !! "commit" = Some (I_commit c1) -> commit_Tree c1 = Ok T1 ->
  deps2 !! "commit" = Some (I_commit c2) -> commit_Tree c2 = Ok T2 ->
  Consume DiffTree treediff deps1 w = (Returned (Some m1, None), treediff1, w1) ->
  Consume DiffTree treediff1 deps2 w1 = (Returned (Some m2, None), treediff2, w2) ->
  (DiffTree T1 T2).2 = None
  /\ m2 = {[ DependencyTreeChanges :=
               I_changes (applyFilter (DiffTree T1 T2).1 (SkipDirs treediff)) ]}
  /\ (SkipDirs treediff = [] ->
      m2 = {[ DependencyTreeChanges := I_changes (DiffTree T1 T2).1 ]}).
Proof.
  intros Hd1 Ht1 Hd2 Ht2 Hfirst Hsecond.
  assert (treediff1 = mkTreeDiff (Some T1) (SkipDirs treediff)) as ->.
  { revert Hfirst. consume_paths treediff deps1 w; intros [= <- <- <-];
      do 2 f_equal; congruence. }
  assert ((DiffTree T1 T2).2 = None
          /\ m2 = {[ DependencyTreeChanges :=
               I_changes (applyFilter (DiffTree T1 T2).1 (SkipDirs treediff)) ]})
    as [Hok Hm2].
  { revert Hsecond.
    consume_paths (mkTreeDiff (Some T1) (SkipDirs treediff)) deps2 w1;
      intros [= <- <- <-]; try congruence.
    assert (prev' = T1) as -> by congruence.
    assert (tree' = T2) as -> by congruence.
    by rewrite Hdiff'. }
  repeat split; try done.
  intros Hdirs. rewrite Hm2, Hdirs. reflexivity.
Qed.

(** C4: a failure of [Consume] (the tree cannot be resolved, the file
    enumeration stops on an error other than the end of the listing, or
    the diff fails) is returned with a nil result map and leaves the item
    as it was; these failures are the only error returns, and the previous
    tree changes only on a call that succeeds. *)
Theorem Consume_failure_atomic treediff deps w :
  (forall err,
     ConsumeFails DiffTree treediff deps err
     <-> exists m, (Consume DiffTree treediff deps w).1.1 = Returned (m, Some err))
  /\ (forall m err,
        (Consume DiffTree treediff deps w).1.1 = Returned (m, Some err) ->
        m = None /\ (Consume DiffTree treediff deps w).1.2 = treediff)
  /\ (previousTree (Consume DiffTree treediff deps w).1.2
        <> previousTree treediff ->
      exists m, (Consume DiffTree treediff deps w).1.1 = Returned (Some m, None)).
Proof.
  split; [| split].
  - intros err. split.
    + intros Hfail. exists None.
      destruct Hfail; consume_paths treediff deps w;
        solve [congruence | exfalso; naive_solver].
    + intros [m Hm]. revert Hm.
      consume_paths treediff deps w; intros [= <- <-].
      * eapply TreeResolutionError; eauto.
      * eapply EnumerationError; eauto.
      * eapply DiffComputationError; eauto.
  - intros m err.
    consume_paths treediff deps w; intros [= <- <-]; done.
  - consume_paths treediff deps w; intros Hne; try done; eauto.
Qed.

(** One call with a blacklist against the same call without: same store,
    same previous tree afterwards, and the changes returned are the
    unfiltered ones passed through the filter. *)
Lemma Consume_filter_step prev dirs deps w :
  let filtered := Consume DiffTree (mkTreeDiff prev dirs) deps w in
  let plain := Consume DiffTree (mkTreeDiff prev []) deps w in
  filtered.1.1 = filterReturns dirs plain.1.1
  /\ filtered.1.2 = mkTreeDiff (previousTree plain.1.2) dirs
  /\ plain.1.2 = mkTreeDiff (previousTree plain.1.2) []
  /\ filtered.2 = plain.2.
Proof.
  unfold Consume, map_index.
  destruct (deps !! "commit") as [[| | | | | commit |] |]; simpl; try done.
  destruct (commit_Tree commit) as [tree | err]; simpl; [| done].
  destruct prev as [prev |]; simpl.
  - destruct (DiffTree prev tree) as [diff [err |]]; simpl; [done |].
    by rewrite map_fmap_singleton.
  - unfold mbind, Git_bind. rewrite listFiles_spec.
    destruct (stopError (tree_Files tree)); simpl; [done |].
    by rewrite map_fmap_singleton.
Qed.

Lemma ConsumeAll_filter calls : forall prev dirs w,
  let filtered := ConsumeAll DiffTree (mkTreeDiff prev dirs) calls w in
  let plain := ConsumeAll DiffTree (mkTreeDiff prev []) calls w in
  previousTree filtered.1.2 = previousTree plain.1.2
  /\ filtered.1.1 = map (filterReturns dirs) plain.1.1
  /\ filtered.2 = plain.2.
Proof.
  induction calls as [| deps calls IH]; intros prev dirs w; simpl; [done |].
  unfold mbind, Git_bind.
  destruct (Consume_filter_step prev dirs deps w) as (Hr & Htd & Htd0 & Hw).
  destruct (Consume DiffTree (mkTreeDiff prev dirs) deps w) as [[r td] w1].
  destruct (Consume DiffTree (mkTreeDiff prev []) deps w) as [[r0 td0] w0].
  simpl in *. subst r td w1.
  destruct td0 as [prev0 dirs0]. simpl in *. injection Htd0 as ->.
  specialize (IH prev0 dirs w0). simpl in IH.
  destruct (ConsumeAll DiffTree (mkTreeDiff prev0 dirs) calls w0)
    as [[rs td'] w'].
  destruct (ConsumeAll DiffTree (mkTreeDiff prev0 []) calls w0)
    as [[rs0 td0'] w0'].
  simpl in *. destruct IH as (-> & -> & ->). done.
Qed.

(** C6: a successful call stores the tree the commit resolved to, whole,
    whatever the blacklist; so over any series of calls and for any
    blacklist the previous tree is the one the item would hold without a
    blacklist, and what each call returns is what it would return without
    a blacklist, passed through the filter. *)
Theorem Consume_baseline_unfiltered :
  (forall treediff deps w m,
     (Consume DiffTree treediff deps w).1.1 = Returned (Some m, None) ->
     exists commit tree,
       deps !! "commit" = Some (I_commit commit)
       /\ commit_Tree commit = Ok tree
       /\ (Consume DiffTree treediff deps w).1.2
          = mkTreeDiff (Some tree) (SkipDirs treediff))
  /\ (forall calls prev dirs w,
        let filtered := ConsumeAll DiffTree (mkTreeDiff prev dirs) calls w in
        let plain := ConsumeAll DiffTree (mkTreeDiff prev []) calls w in
        previousTree filtered.1.2 = previousTree plain.1.2
        /\ filtered.1.1 = map (filterReturns dirs) plain.1.1
        /\ filtered.2 = plain.2).
Proof.
  split; [| apply ConsumeAll_filter].
  intros treediff deps w m.
  consume_paths treediff deps w; intros [=]; eauto.
Qed.

(** C9: whatever [Consume] does, the iterator of the first-call listing is
    closed when it returns.  The calls it adds to the store are none, or
    [Files()], the [Next()] calls and [Close()] last; the second is the
    case whenever there is no previous tree and the commit resolves to a
    tree, whether the listing ends, breaks off with an error or is empty.
    No iterator is left open. *)
Theorem Consume_closes_iterator treediff deps w :
  exists evs,
    (Consume DiffTree treediff deps w).2 = w ++ evs
    /\ (evs = []
        \/ exists k, evs = [EvFiles] ++ repeat EvNext k ++ [EvClose])
    /\ (forall commit tree,
          deps !! "commit" = Some (I_commit commit) ->
          commit_Tree commit = Ok tree ->
          previousTree treediff = None ->
          evs = enumerationLog tree)
    /\ openIters (Consume DiffTree treediff deps w).2 0 = openIters w 0.
Proof.
  consume_paths treediff deps w.
  1, 2, 5, 6:
    exists []; rewrite app_nil_r;
    split; [done |]; split; [by left |]; split; [| done];
    intros c t ? ? ?; first [congruence | exfalso; naive_solver].
  all:
    exists (enumerationLog tree');
    split; [done |]; split; [right; eexists; reflexivity |];
    split; [intros c t ? ? ?; congruence |];
    by rewrite openIters_app, openIters_enumerationLog.
Qed.

End ConsumeProperties.

(** ** [Configure] *)

(** C5: on an item whose blacklist is still empty, [Configure] makes the
    supplied list of directories the blacklist when the skip option is
    true; when the option is false or missing the item is unchanged, the
    blacklist stays empty whatever list is supplied, and the filter stage
    returns every list of changes as it is. *)
Theorem Configure_sets_blacklist (treediff : TreeDiff)
    (facts : gmap string iface) :
  SkipDirs treediff = [] ->
  (forall dirs,
     facts !! ConfigTreeDiffSkipBlacklist = Some (I_bool true) ->
     facts !! ConfigTreeDiffBlacklistedDirs = Some (I_strings dirs) ->
     Configure treediff facts
     = Returned (mkTreeDiff (previousTree treediff) dirs))
  /\ (facts !! ConfigTreeDiffSkipBlacklist = Some (I_bool false)
      \/ facts !! ConfigTreeDiffSkipBlacklist = None ->
      Configure treediff facts = Returned treediff
      /\ forall diff, applyFilter diff (SkipDirs treediff) = diff).
Proof.
  intros Hnil. split.
  - intros dirs Hskip Hdirs. unfold Configure, map_index.
    rewrite Hskip. simpl. by rewrite Hdirs.
  - intros [Hskip | Hskip]; unfold Configure; rewrite Hskip; simpl;
      (split; [done | intros diff; by rewrite Hnil]).
Qed.

(** C10: [Configure] panics when the skip option is bound to a value that
    is not a boolean, and when it is true while the list of directories is
    missing or is not a list of strings; such inputs exist. *)
Theorem Configure_panics (treediff : TreeDiff) :
  (exists facts, Configure treediff facts = Panicked)
  /\ forall facts : gmap string iface,
       (exists v, facts !! ConfigTreeDiffSkipBlacklist = Some v
                  /\ forall b, v <> I_bool b)
       \/ (facts !! ConfigTreeDiffSkipBlacklist = Some (I_bool true)
           /\ (facts !! ConfigTreeDiffBlacklistedDirs = None
               \/ exists v, facts !! ConfigTreeDiffBlacklistedDirs = Some v
                            /\ forall l, v <> I_strings l)) ->
       Configure treediff facts = Panicked.
Proof.
  split.
  - exists {[ ConfigTreeDiffSkipBlacklist := I_string "yes" ]}. reflexivity.
  - intros facts [(v & Hv & Hnb) | (Hskip & Hdirs)]; unfold Configure.
    + rewrite Hv. destruct v; try done. by destruct (Hnb b).
    + rewrite Hskip. simpl. unfold map_index.
      destruct Hdirs as [-> | (v & -> & Hns)]; [done |].
      destruct v; try done. by destruct (Hns l).
Qed.

(** ** [Initialize] *)

Lemma Initialize_previousTree (treediff : TreeDiff) :
  previousTree (Initialize treediff) = None
  /\ SkipDirs (Initialize treediff) = SkipDirs treediff.
Proof. split; reflexivity. Qed.

Lemma Initialize_of_first (treediff : TreeDiff) :
  previousTree treediff = None -> Initialize treediff = treediff.
Proof. destruct treediff as [prev dirs]. simpl. by intros ->. Qed.

(** ** The scenarios, run *)



(** Second call, where only the content of [a.txt] changed: one
    modification, from the old hash to the new one. *)
Lemma Consume_second_commit_witness :
  (Consume sampleDiffTree (mkTreeDiff (Some tree1) []) (depsOf 102 (Ok tree2))
     [EvFiles; EvNext; EvNext; EvNext; EvClose]).1.1
  = Returned
      (Some {[ DependencyTreeChanges :=
                 I_changes [mkChange (entryOf tree1 (sampleFile "a.txt" 10))
                              (entryOf tree2 (sampleFile "a.txt" 20))] ]},
       None).
Proof.
  pose proof (Consume_second_commit sampleDiffTree newTreeDiff
                (depsOf 101 (Ok tree1)) (depsOf 102 (Ok tree2))
                (mkCommit 101 (Ok tree1)) (mkCommit 102 (Ok tree2))
                tree1 tree2 [] _ _ _ _ _ _
                eq_refl eq_refl eq_refl eq_refl eq_refl eq_refl)
    as (_ & Hm2 & _).
  exact (f_equal (fun m => Returned (Some m, None)) Hm2).
Defined.

(** With [vendor/] blacklisted the second call returns fewer changes than
    the diff of the two trees. *)
Lemma Consume_second_commit_counterexample :
  let treediff := mkTreeDiff None ["vendor/"] in
  let first := Consume sampleDiffTree treediff (depsOf 101 (Ok tree1)) [] in
  let second :=
    Consume sampleDiffTree first.1.2 (depsOf 103 (Ok vendorTree)) first.2 in
  (exists m1, first.1.1 = Returned (Some m1, None))
  /\ exists returned,
       second.1.1
       = Returned (Some {[ DependencyTreeChanges := I_changes returned ]}, None)
       /\ (sampleDiffTree tree1 vendorTree).2 = None
       /\ returned <> (sampleDiffTree tree1 vendorTree).1.
Proof.
  split; [eexists; reflexivity |].
  eexists. split; [reflexivity |]. split; [reflexivity |].
  intros H. apply (f_equal length) in H. discriminate H.
Qed.

(** The three failures, each leaving the item as it was: a commit whose
    tree does not resolve, a listing that breaks off, a diff that fails
    because the listing of the new tree does. *)
Lemma Consume_failure_atomic_witness :
  let unresolved := depsOf 104 (Err (errorString "object not found")) in
  let broken := depsOf 105 (Ok brokenTree) in
  let first := newTreeDiff in
  let later := mkTreeDiff (Some tree1) ["vendor/"] in
  (Consume sampleDiffTree later unresolved []).1
  = (Returned (None, Some (errorString "object not found")), later)
  /\ (Consume sampleDiffTree first broken []).1
     = (Returned (None, Some (errorString "object not found")), first)
  /\ (Consume sampleDiffTree later broken []).1
     = (Returned (None, Some (errorString "object not found")), later).
Proof.
  intros unresolved broken first later.
  assert (forall treediff deps err,
            (Consume sampleDiffTree treediff deps []).1.1
            = Returned (None, Some err) ->
            (Consume sampleDiffTree treediff deps []).1
            = (Returned (None, Some err), treediff)) as Hkeep.
  { intros treediff deps err Herr.
    destruct (Consume_failure_atomic sampleDiffTree treediff deps [])
      as (_ & Hstate & _).
    destruct (Hstate None err Herr) as [_ Hsame].
    destruct (Consume sampleDiffTree treediff deps []) as [[r td] w'].
    simpl in *. by subst. }
  repeat split; apply Hkeep; reflexivity.
Defined.

(** The options of the defaults, with the blacklist switched on and
    switched off. *)
Lemma Configure_sets_blacklist_witness :
  Configure newTreeDiff (factsOf true defaultBlacklistedDirs)
  = Returned (mkTreeDiff None defaultBlacklistedDirs)
  /\ Configure newTreeDiff (factsOf false defaultBlacklistedDirs)
     = Returned newTreeDiff.
Proof.
  split.
  - exact (proj1 (Configure_sets_blacklist newTreeDiff
                    (factsOf true defaultBlacklistedDirs) eq_refl)
             defaultBlacklistedDirs eq_refl eq_refl).
  - exact (proj1 (proj2 (Configure_sets_blacklist newTreeDiff
                           (factsOf false defaultBlacklistedDirs) eq_refl)
                    (or_introl eq_refl))).
Defined.

(** Two commits with [vendor/] blacklisted: the item ends on the whole
    second tree. *)
Lemma Consume_baseline_unfiltered_witness :
  (Consume sampleDiffTree (mkTreeDiff (Some tree1) ["vendor/"])
     (depsOf 103 (Ok vendorTree)) []).1.2
  = mkTreeDiff (Some vendorTree) ["vendor/"]
  /\ previousTree
       (ConsumeAll sampleDiffTree (mkTreeDiff None ["vendor/"])
          [depsOf 101 (Ok tree1); depsOf 103 (Ok vendorTree)] []).1.2
     = Some vendorTree.
Proof.
  destruct (Consume_baseline_unfiltered sampleDiffTree) as [Hcall Hseries].
  split.
  - destruct (Hcall (mkTreeDiff (Some tree1) ["vendor/"])
                (depsOf 103 (Ok vendorTree)) [] _ eq_refl)
      as (commit & tree & Hdeps & Htree & Htd).
    rewrite Htd. injection Hdeps as <-. injection Htree as <-. reflexivity.
  - destruct (Hseries [depsOf 101 (Ok tree1); depsOf 103 (Ok vendorTree)]
                None ["vendor/"] []) as (Hprev & _).
    rewrite Hprev. reflexivity.
Defined.

(** A listing that breaks off after one file: [Files()], two [Next()],
    [Close()]. *)
Lemma Consume_closes_iterator_witness :
  (Consume sampleDiffTree newTreeDiff (depsOf 105 (Ok brokenTree)) []).2
  = [EvFiles; EvNext; EvNext; EvClose].
Proof.
  destruct (Consume_closes_iterator sampleDiffTree newTreeDiff
              (depsOf 105 (Ok brokenTree)) [])
    as (evs & Hlog & _ & Hevs & _).
  rewrite Hlog.
  rewrite (Hevs (mkCommit 105 (Ok brokenTree)) brokenTree
             eq_refl eq_refl eq_refl).
  reflexivity.
Defined.

(** A skip option that is a string; a true skip option without the list
    of directories. *)
Lemma Configure_panics_witness :
  Configure newTreeDiff {[ ConfigTreeDiffSkipBlacklist := I_string "true" ]}
  = Panicked
  /\ Configure newTreeDiff {[ ConfigTreeDiffSkipBlacklist := I_bool true ]}
     = Panicked.
Proof.
  split; apply (proj2 (Configure_panics newTreeDiff)).
  - left. exists (I_string "true"). split; [reflexivity | discriminate].
  - right. split; [reflexivity | left; reflexivity].
Defined.

(** * Further properties *)

(** ** Prefixes *)

Lemma append_String (a : Ascii.ascii) (s rest : string) :
  String.append (String a s) rest = String a (String.append s rest).
Proof. reflexivity. Qed.

Lemma HasPrefix_append (s dir : string) :
  HasPrefix s dir = true <-> exists rest, s = String.append dir rest.
Proof.
  unfold HasPrefix. revert s.
  induction dir as [| a dir IH]; intros s; simpl.
  - split; [intros _; by exists s | by destruct s].
  - destruct s as [| b s]; simpl.
    + split; [done | intros [rest Hrest]; discriminate].
    + destruct (Ascii.ascii_dec a b) as [-> | Hne].
      * rewrite IH. split; intros [rest Hrest]; exists rest;
          rewrite append_String in *; congruence.
      * split; [done |].
        intros [rest Hrest]. rewrite append_String in Hrest. congruence.
Qed.

Lemma skipped_true (dirs : list string) (change : Change) :
  skipped dirs change = true
  <-> exists dir, dir ∈ dirs
        /\ (HasPrefix (ce_Name (To change)) dir = true
            \/ HasPrefix (ce_Name (From change)) dir = true).
Proof.
  induction dirs as [| d dirs IH]; simpl.
  - split; [done | intros (dir & Hin & _); by apply elem_of_nil in Hin].
  - destruct (HasPrefix (ce_Name (To change)) d
              || HasPrefix (ce_Name (From change)) d) eqn:Hd.
    + split; [intros _ | done].
      exists d. split; [left |]. by apply orb_true_iff.
    + rewrite IH. apply orb_false_iff in Hd as [HT HF].
      split; intros (dir & Hin & Hp).
      * exists dir. split; [by right | done].
      * exists dir. split; [| done].
        apply elem_of_cons in Hin as [-> | Hin]; [| done].
        destruct Hp; congruence.
Qed.

(** X1: the filter matches prefixes letter by letter, not by path
    segment: a change is dropped exactly when one of its two names is a
    blacklisted prefix followed by any string. *)
Theorem skipped_literal_prefix (dirs : list string) (change : Change) :
  skipped dirs change = true
  <-> exists dir rest,
        dir ∈ dirs
        /\ (ce_Name (To change) = String.append dir rest
            \/ ce_Name (From change) = String.append dir rest).
Proof.
  rewrite skipped_true. split.
  - intros (dir & Hin & [Hp | Hp]); apply HasPrefix_append in Hp as [rest Hr];
      exists dir, rest; auto.
  - intros (dir & rest & Hin & [Hr | Hr]); exists dir; (split; [done |]);
      [left | right]; apply HasPrefix_append; eauto.
Qed.

(** The prefix [vendor], without a separator, also drops a file of the
    directory [vendor2]. *)
Lemma skipped_literal_prefix_witness :
  skipped ["vendor"]
    (mkChange emptyEntry (entryOf tree1 (sampleFile "vendor2/file" 40)))
  = true.
Proof.
  apply skipped_literal_prefix. exists "vendor", "2/file".
  split; [by apply list_elem_of_singleton | left; reflexivity].
Defined.

Lemma elem_of_filter_kept (dirs : list string) (diff : Changes) (c : Change) :
  c ∈ List.filter (kept dirs) diff <-> c ∈ diff /\ skipped dirs c = false.
Proof.
  rewrite !list_elem_of_In, filter_In. unfold kept.
  by rewrite negb_true_iff.
Qed.

(** X2: a change is in the output of the filter stage exactly when it is
    in the input and none of its two names begins with a blacklisted
    prefix; no assumption on the changes or on the blacklist. *)
Theorem applyFilter_elem_of (diff : Changes) (dirs : list string)
    (c : Change) :
  c ∈ applyFilter diff dirs
  <-> c ∈ diff
      /\ forall dir, dir ∈ dirs ->
           HasPrefix (ce_Name (To c)) dir = false
           /\ HasPrefix (ce_Name (From c)) dir = false.
Proof.
  assert (skipped dirs c = false
          <-> forall dir, dir ∈ dirs ->
                HasPrefix (ce_Name (To c)) dir = false
                /\ HasPrefix (ce_Name (From c)) dir = false) as Hs.
  { rewrite <- not_true_iff_false, skipped_true. split.
    - intros Hno dir Hin.
      destruct (HasPrefix (ce_Name (To c)) dir) eqn:HT;
        [exfalso; apply Hno; eauto |].
      destruct (HasPrefix (ce_Name (From c)) dir) eqn:HF;
        [exfalso; apply Hno; eauto | done].
    - intros Hall (dir & Hin & Hp). destruct (Hall dir Hin) as [HT HF].
      destruct Hp; congruence. }
  destruct dirs as [| d ds].
  - simpl. split; [intros Hin; split; [done |] | tauto].
    intros dir Hd. by apply elem_of_nil in Hd.
  - rewrite applyFilter_filter by done.
    rewrite elem_of_filter_kept. by rewrite Hs.
Qed.

Lemma applyFilter_elem_of_witness :
  mkChange emptyEntry (entryOf vendorTree (sampleFile "main.go" 30))
  ∈ applyFilter scenarioChanges ["vendor/"].
Proof.
  apply applyFilter_elem_of. split.
  - unfold scenarioChanges. rewrite !elem_of_cons. tauto.
  - intros dir Hdir. apply list_elem_of_singleton in Hdir as ->.
    split; reflexivity.
Defined.

(** X3: an empty string in the blacklist empties the output: every name
    begins with it. *)
Theorem applyFilter_empty_prefix (diff : Changes) (dirs : list string) :
  "" ∈ dirs -> applyFilter diff dirs = [].
Proof.
  intros Hin.
  assert (forall c, skipped dirs c = true) as Hall.
  { intros c. apply skipped_true. exists "". split; [done |].
    left. apply HasPrefix_of_empty. }
  rewrite applyFilter_filter; [| by intros ->; apply elem_of_nil in Hin].
  induction diff as [| c diff IH]; simpl; [done |].
  unfold kept at 1. by rewrite Hall.
Qed.

Lemma applyFilter_empty_prefix_witness :
  applyFilter scenarioChanges ["vendor/"; ""] = [].
Proof.
  apply applyFilter_empty_prefix. rewrite !elem_of_cons. tauto.
Defined.

Lemma skipped_app (dirs1 dirs2 : list string) (c : Change) :
  skipped (dirs1 ++ dirs2) c = skipped dirs1 c || skipped dirs2 c.
Proof.
  induction dirs1 as [| d dirs1 IH]; simpl; [done |].
  by destruct (HasPrefix (ce_Name (To c)) d
               || HasPrefix (ce_Name (From c)) d).
Qed.

Lemma applyFilter_as_filter (diff : Changes) (dirs : list string) :
  applyFilter diff dirs = List.filter (kept dirs) diff.
Proof.
  destruct dirs as [| d ds]; [| by apply applyFilter_filter].
  simpl. induction diff as [| c diff IH]; simpl; [done | by rewrite <- IH].
Qed.

(** X4: filtering with one blacklist and then with another is filtering
    once with the two lists joined. *)
Theorem applyFilter_compose (diff : Changes) (dirs1 dirs2 : list string) :
  applyFilter (applyFilter diff dirs1) dirs2 = applyFilter diff (dirs1 ++ dirs2).
Proof.
  rewrite !applyFilter_as_filter.
  induction diff as [| c diff IH]; simpl; [done |].
  unfold kept in *. rewrite skipped_app.
  destruct (skipped dirs1 c); simpl; [done |].
  destruct (skipped dirs2 c); simpl; by rewrite IH.
Qed.

(** X5: the output depends on the blacklist as a set: the order of the
    prefixes and their repetitions do not matter. *)
Theorem applyFilter_same_prefixes (diff : Changes) (dirs1 dirs2 : list string) :
  (forall dir, dir ∈ dirs1 <-> dir ∈ dirs2) ->
  applyFilter diff dirs1 = applyFilter diff dirs2.
Proof.
  intros Hsame. rewrite !applyFilter_as_filter.
  apply filter_ext_Forall, Forall_forall. intros c _. unfold kept. f_equal.
  destruct (skipped dirs2 c) eqn:H2.
  - apply skipped_true in H2 as (dir & Hin & Hp).
    apply skipped_true. exists dir. by rewrite Hsame.
  - apply not_true_iff_false. rewrite skipped_true.
    intros (dir & Hin & Hp).
    apply not_true_iff_false in H2. apply H2, skipped_true.
    exists dir. by rewrite <- Hsame.
Qed.

Lemma applyFilter_same_prefixes_witness :
  applyFilter scenarioChanges ["vendor/"; "node_modules/"; "vendor/"]
  = applyFilter scenarioChanges ["node_modules/"; "vendor/"].
Proof.
  apply applyFilter_same_prefixes.
  intros dir. rewrite !elem_of_cons, !elem_of_nil. tauto.
Defined.

(** X6: the filter works change by change: the output for two lists put
    end to end is the two outputs put end to end. *)
Theorem applyFilter_app (diff1 diff2 : Changes) (dirs : list string) :
  applyFilter (diff1 ++ diff2) dirs
  = applyFilter diff1 dirs ++ applyFilter diff2 dirs.
Proof. rewrite !applyFilter_as_filter. apply List.filter_app. Qed.

(** ** The backing array after the filter *)

Lemma filterLoop_array (dirs : list string) (n : nat) :
  forall (i j : nat) (arr : list Change),
    j <= i -> i + n = length arr ->
    let filtered := List.filter (kept dirs) (drop i arr) in
    filterLoop dirs n i j arr
    = ((j + length filtered)%nat,
       take j arr ++ filtered ++ drop (j + length filtered) arr).
Proof.
  induction n as [| n IH]; intros i j arr Hji Hlen; simpl.
  - rewrite drop_ge by lia. simpl. by rewrite Nat.add_0_r, take_drop.
  - destruct (lookup_lt_is_Some_2 arr i ltac:(lia)) as [c Hc].
    rewrite Hc, (drop_S _ _ _ Hc). simpl.
    change (kept dirs c) with (negb (skipped dirs c)).
    destruct (skipped dirs c); simpl.
    + apply IH; lia.
    + rewrite IH; [| lia | rewrite length_insert; lia]. simpl.
      rewrite !drop_insert_lt by lia.
      rewrite (take_S_r _ _ c) by (apply list_lookup_insert_eq; lia).
      rewrite take_insert_ge by lia.
      rewrite <- app_assoc. simpl.
      by rewrite Nat.add_succ_r.
Qed.

(** X7: the filter compacts in place.  When the loop ends the backing
    array of the input holds the changes that were kept, in order, followed
    by the cells of the input from that position on, untouched; the output
    is its first part and the array has not grown. *)
Theorem filterLoop_backing_array (dirs : list string) (diff : Changes) :
  let filtered := List.filter (kept dirs) diff in
  filterLoop dirs (length diff) 0 0 diff
  = (length filtered, filtered ++ drop (length filtered) diff)
  /\ filterInPlace dirs diff = filtered
  /\ length (filterLoop dirs (length diff) 0 0 diff).2 = length diff.
Proof.
  split; [| split].
  - exact (filterLoop_array dirs (length diff) 0 0 diff (le_n 0) eq_refl).
  - apply filterInPlace_filter.
  - apply filterLoop_length.
Qed.

(** ** [Configure] and the published options *)

(** X8: [Configure] panics only on the inputs of C10: it returns whenever
    the skip option is missing, is the boolean false, or is true with a
    list of strings under the directories option. *)
Theorem Configure_panics_iff (treediff : TreeDiff)
    (facts : gmap string iface) :
  Configure treediff facts = Panicked
  <-> (exists v, facts !! ConfigTreeDiffSkipBlacklist = Some v
                 /\ forall b, v <> I_bool b)
      \/ (facts !! ConfigTreeDiffSkipBlacklist = Some (I_bool true)
          /\ forall l, facts !! ConfigTreeDiffBlacklistedDirs
                       <> Some (I_strings l)).
Proof.
  unfold Configure, map_index.
  destruct (facts !! ConfigTreeDiffSkipBlacklist) as [v |] eqn:Hskip.
  2: { simpl. split; [done |]. intros [(v & Hv & _) | [Hv _]]; done. }
  destruct v as [| [] | | | | |]; simpl;
    try (split; [intros _; left; eexists; split; [done | done] |
                 intros _; done]).
  - destruct (facts !! ConfigTreeDiffBlacklistedDirs) as [d |] eqn:Hdirs;
      [destruct d |]; simpl;
      try (split; [intros _; right; split; [done | done] | done]).
    split; [done |].
    intros [(v & [= <-] & Hnb) | [_ Hns]];
      [by destruct (Hnb true) | by destruct (Hns l)].
  - split; [done |].
    intros [(v & [= <-] & Hnb) | [[=] _]]. by destruct (Hnb false).
Qed.

Lemma Configure_panics_iff_witness :
  Configure newTreeDiff {[ ConfigTreeDiffSkipBlacklist := I_int 1 ]}
  = Panicked.
Proof.
  apply Configure_panics_iff. left. exists (I_int 1).
  split; [reflexivity | discriminate].
Defined.

(** X9: [Configure] never touches the previous tree and never clears a
    blacklist: the blacklist after the call is the one before, or the
    list supplied with a true skip option.  A false or missing skip option
    leaves the item as it is, a blacklist set earlier included. *)
Theorem Configure_keeps (treediff treediff' : TreeDiff)
    (facts : gmap string iface) :
  Configure treediff facts = Returned treediff' ->
  previousTree treediff' = previousTree treediff
  /\ (facts !! ConfigTreeDiffSkipBlacklist = Some (I_bool true)
      /\ facts !! ConfigTreeDiffBlacklistedDirs
         = Some (I_strings (SkipDirs treediff'))
      \/ facts !! ConfigTreeDiffSkipBlacklist <> Some (I_bool true)
         /\ treediff' = treediff).
Proof.
  unfold Configure, map_index.
  destruct (facts !! ConfigTreeDiffSkipBlacklist) as [v |] eqn:Hskip.
  2: { intros [= <-]. split; [done |]. right. done. }
  destruct v as [| [] | | | | |]; simpl; try done.
  - destruct (facts !! ConfigTreeDiffBlacklistedDirs) as [[] |]; simpl;
      try done.
    intros [= <-]. split; [done |]. left. done.
  - intros [= <-]. split; [done |]. right. done.
Qed.

Lemma Configure_keeps_witness :
  Configure (mkTreeDiff (Some tree1) ["vendor/"])
    (factsOf false defaultBlacklistedDirs)
  = Returned (mkTreeDiff (Some tree1) ["vendor/"])
  /\ SkipDirs (mkTreeDiff (Some tree1) ["vendor/"]) = ["vendor/"].
Proof.
  destruct (Configure_keeps (mkTreeDiff (Some tree1) ["vendor/"])
              (mkTreeDiff (Some tree1) ["vendor/"])
              (factsOf false defaultBlacklistedDirs) eq_refl) as [_ Hdirs].
  split; reflexivity.
Defined.

(** X10: the options of [ListConfigurationOptions] are the ones
    [Configure] reads: two fact maps that agree on the published names
    configure the item alike. *)
Theorem Configure_reads_published (treediff : TreeDiff)
    (facts facts' : gmap string iface) :
  (forall o, o ∈ ListConfigurationOptions ->
     facts !! co_Name o = facts' !! co_Name o) ->
  Configure treediff facts = Configure treediff facts'.
Proof.
  intros Hagree. unfold Configure, map_index.
  rewrite <- (Hagree (mkConfigurationOption ConfigTreeDiffSkipBlacklist
                        _ _ _ _)) by (unfold ListConfigurationOptions;
                                      rewrite !elem_of_cons; eauto).
  rewrite <- (Hagree (mkConfigurationOption ConfigTreeDiffBlacklistedDirs
                        _ _ _ _)) by (unfold ListConfigurationOptions;
                                      rewrite !elem_of_cons; eauto).
  reflexivity.
Qed.

Lemma Configure_reads_published_witness :
  Configure newTreeDiff
    (<[ "Burndown.Granularity" := I_int 30 ]>
       (factsOf true defaultBlacklistedDirs))
  = Configure newTreeDiff (factsOf true defaultBlacklistedDirs).
Proof.
  apply Configure_reads_published.
  intros o Ho. unfold ListConfigurationOptions in Ho.
  rewrite !elem_of_cons, elem_of_nil in Ho.
  destruct Ho as [-> | [-> | []]]; reflexivity.
Defined.

(** X11: the published defaults have the types the options announce, and
    [Configure] returns on every fact map that binds each published option
    to a value of its announced type; the defaults leave the item as it
    is. *)
Theorem Configure_well_typed (treediff : TreeDiff)
    (facts : gmap string iface) :
  Forall (fun o => hasType (co_Type o) (co_Default o) = true)
    ListConfigurationOptions
  /\ ((forall o, o ∈ ListConfigurationOptions ->
         exists v, facts !! co_Name o = Some v
                   /\ hasType (co_Type o) v = true) ->
      exists treediff', Configure treediff facts = Returned treediff')
  /\ Configure treediff (defaultFacts ListConfigurationOptions)
     = Returned treediff.
Proof.
  split; [repeat constructor |]. split; [| reflexivity].
  intros Htyped.
  destruct (Htyped (mkConfigurationOption ConfigTreeDiffSkipBlacklist
                      _ _ _ _)
              ltac:(unfold ListConfigurationOptions;
                    rewrite !elem_of_cons; eauto))
    as (v1 & Hv1 & Ht1).
  destruct (Htyped (mkConfigurationOption ConfigTreeDiffBlacklistedDirs
                      _ _ _ _)
              ltac:(unfold ListConfigurationOptions;
                    rewrite !elem_of_cons; eauto))
    as (v2 & Hv2 & Ht2).
  simpl in *. unfold Configure, map_index. rewrite Hv1, Hv2.
  destruct v1; try done. destruct v2; try done.
  destruct b; simpl; eauto.
Qed.

Lemma Configure_well_typed_witness :
  exists treediff',
    Configure newTreeDiff (factsOf true ["third_party/"])
    = Returned treediff'.
Proof.
  apply (proj1 (proj2 (Configure_well_typed newTreeDiff
                         (factsOf true ["third_party/"])))).
  intros o Ho. unfold ListConfigurationOptions in Ho.
  rewrite !elem_of_cons, elem_of_nil in Ho.
  destruct Ho as [-> | [-> | []]]; eexists; split; reflexivity.
Defined.

(** ** [Consume] and its inputs *)

Section ConsumeFurther.

Variable DiffTree : Tree -> Tree -> Changes * option error.

Ltac consume_paths' treediff deps w :=
  destruct (Consume_path DiffTree treediff deps w)
    as [ Hnone
       | commit' err' Hdeps' Hres'
       | commit' tree' Hdeps' Hres' Hprev' Hstop'
       | commit' tree' Hdeps' Hres' Hprev' Hstop'
       | commit' tree' prev' diff' Hdeps' Hres' Hprev' Hdiff'
       | commit' tree' prev' partial' err' Hdeps' Hres' Hprev' Hdiff' ];
  unfold deliver in *; simpl in *.


(** X13: [Consume] reads nothing of [deps] but the commit: the entries
    under other keys do not matter, in line with the empty [Requires]. *)
Theorem Consume_reads_commit_only treediff deps deps' w :
  (forall key, key ∈ "commit" :: Requires -> deps !! key = deps' !! key) ->
  Consume DiffTree treediff deps w = Consume DiffTree treediff deps' w.
Proof.
  intros Hagree. unfold Consume, map_index.
  by rewrite (Hagree "commit") by (rewrite elem_of_cons; eauto).
Qed.

(** X14: a call that succeeds returns a map with one key for each name of
    [Provides] and no other, bound to a list of changes. *)
Theorem Consume_provides treediff deps w m :
  (Consume DiffTree treediff deps w).1.1 = Returned (Some m, None) ->
  dom m = list_to_set Provides
  /\ exists diff, m !! DependencyTreeChanges = Some (I_changes diff).
Proof.
  consume_paths' treediff deps w; intros [= <-]; split;
    solve [ rewrite dom_singleton_L; simpl; by rewrite union_empty_r_L
          | eexists; apply lookup_singleton_eq ].
Qed.

(** The store only records: what [Consume] returns and leaves in the item
    does not depend on the log, and the log it leaves is the old one with
    the calls of this run added. *)
Lemma Consume_store_independent treediff deps w :
  (Consume DiffTree treediff deps w).1 = (Consume DiffTree treediff deps []).1
  /\ (Consume DiffTree treediff deps w).2
     = w ++ (Consume DiffTree treediff deps []).2.
Proof.
  unfold Consume, map_index.
  destruct (deps !! "commit") as [[| | | | | commit |] |]; simpl;
    try by rewrite app_nil_r.
  destruct (commit_Tree commit) as [tree | err]; simpl;
    [| by rewrite app_nil_r].
  destruct (previousTree treediff) as [prev |]; simpl.
  - destruct (DiffTree prev tree) as [diff [err |]]; simpl;
      by rewrite app_nil_r.
  - unfold mbind, Git_bind. rewrite !listFiles_spec.
    destruct (stopError (tree_Files tree)); simpl; done.
Qed.

(** X15: the first call never consults [DiffTree], and a call with a
    previous tree never opens a file iterator. *)
Theorem Consume_branches (OtherDiffTree : Tree -> Tree -> Changes * option error)
    treediff deps w :
  (previousTree treediff = None ->
   Consume DiffTree treediff deps w = Consume OtherDiffTree treediff deps w)
  /\ (previousTree treediff <> None ->
      (Consume DiffTree treediff deps w).2 = w).
Proof.
  split; intros Hprev.
  - unfold Consume. by rewrite Hprev.
  - consume_paths' treediff deps w; congruence.
Qed.

(** A call that did not succeed left the item as it was. *)
Lemma Consume_not_succeeded treediff deps w :
  succeeded (Consume DiffTree treediff deps w).1.1 = false ->
  (Consume DiffTree treediff deps w).1.2 = treediff.
Proof. consume_paths' treediff deps w; done. Qed.

Lemma Consume_SkipDirs treediff deps w :
  SkipDirs (Consume DiffTree treediff deps w).1.2 = SkipDirs treediff.
Proof. consume_paths' treediff deps w; done. Qed.

Lemma Consume_succeeded_previousTree treediff deps w :
  succeeded (Consume DiffTree treediff deps w).1.1 = true ->
  previousTree (Consume DiffTree treediff deps w).1.2 = resolvedTree deps.
Proof.
  unfold resolvedTree.
  consume_paths' treediff deps w; try done; intros _;
    by rewrite Hdeps', Hres'.
Qed.

Lemma ConsumeAll_cons treediff deps calls w :
  ConsumeAll DiffTree treediff (deps :: calls) w
  = let first := Consume DiffTree treediff deps w in
    let rest := ConsumeAll DiffTree first.1.2 calls first.2 in
    (first.1.1 :: rest.1.1, rest.1.2, rest.2).
Proof.
  simpl. unfold mbind, Git_bind.
  destruct (Consume DiffTree treediff deps w) as [[r td] w1]. simpl.
  destruct (ConsumeAll DiffTree td calls w1) as [[rs td'] w']. done.
Qed.

Lemma ConsumeAll_store_independent calls : forall treediff w w',
  (ConsumeAll DiffTree treediff calls w).1
  = (ConsumeAll DiffTree treediff calls w').1.
Proof.
  induction calls as [| deps calls IH]; intros treediff w w'; [done |].
  rewrite !ConsumeAll_cons. simpl.
  destruct (Consume_store_independent treediff deps w) as [-> _].
  destruct (Consume_store_independent treediff deps w') as [-> _].
  by rewrite (IH _ (Consume DiffTree treediff deps w).2
                (Consume DiffTree treediff deps w').2).
Qed.

Lemma ConsumeAll_SkipDirs calls : forall treediff w,
  SkipDirs (ConsumeAll DiffTree treediff calls w).1.2 = SkipDirs treediff.
Proof.
  induction calls as [| deps calls IH]; intros treediff w; [done |].
  rewrite ConsumeAll_cons. simpl. by rewrite IH, Consume_SkipDirs.
Qed.

(** X16: over a series of calls there is one return per call, the
    blacklist stays the one the item started with, and the previous tree at
    the end is the tree of the last call that succeeded (the one the item
    started with when none did). *)
Theorem ConsumeAll_history calls : forall treediff w,
  let run := ConsumeAll DiffTree treediff calls w in
  length run.1.1 = length calls
  /\ SkipDirs run.1.2 = SkipDirs treediff
  /\ previousTree run.1.2
     = lastSucceeded (previousTree treediff) calls run.1.1.
Proof.
  induction calls as [| deps calls IH]; intros treediff w; [done |].
  rewrite ConsumeAll_cons. simpl.
  destruct (IH (Consume DiffTree treediff deps w).1.2
              (Consume DiffTree treediff deps w).2) as (Hlen & Hdirs & Hprev).
  split; [by rewrite Hlen |]. split; [by rewrite Hdirs, Consume_SkipDirs |].
  rewrite Hprev.
  destruct (succeeded (Consume DiffTree treediff deps w).1.1) eqn:Hs.
  - by rewrite Consume_succeeded_previousTree.
  - by rewrite Consume_not_succeeded.
Qed.

(** X17: calls that fail or panic can be struck from a series: the calls
    that succeeded, run alone from the same item, return what they
    returned in the series and leave the same item. *)
Theorem ConsumeAll_successful_only calls : forall treediff w w',
  let run := ConsumeAll DiffTree treediff calls w in
  (ConsumeAll DiffTree treediff (successfulCalls calls run.1.1) w').1
  = (List.filter succeeded run.1.1, run.1.2).
Proof.
  induction calls as [| deps calls IH]; intros treediff w w'; [done |].
  rewrite ConsumeAll_cons. simpl.
  destruct (succeeded (Consume DiffTree treediff deps w).1.1) eqn:Hs.
  - rewrite ConsumeAll_cons. simpl.
    destruct (Consume_store_independent treediff deps w) as [Hw _].
    destruct (Consume_store_independent treediff deps w') as [Hw' _].
    rewrite Hw'. rewrite <- Hw.
    specialize (IH (Consume DiffTree treediff deps w).1.2
                  (Consume DiffTree treediff deps w).2
                  (Consume DiffTree treediff deps w').2).
    simpl in IH. by rewrite IH.
  - rewrite <- (Consume_not_succeeded treediff deps w Hs) at 1.
    apply IH.
Qed.

(** X18: [Initialize] wipes the history: after any series of calls, the
    call that follows [Initialize] lists the files of its commit's tree,
    filtered by the blacklist the item was configured with, whatever the
    series was. *)
Theorem Initialize_forgets calls treediff w deps commit tree :
  deps !! "commit" = Some (I_commit commit) ->
  commit_Tree commit = Ok tree ->
  iterStop (tree_Files tree) = io_EOF ->
  let run := ConsumeAll DiffTree treediff calls w in
  (Consume DiffTree (Initialize run.1.2) deps run.2).1
  = (Returned
       (Some {[ DependencyTreeChanges :=
                  I_changes
                    (applyFilter
                       (map (insertion tree) (iterFiles (tree_Files tree)))
                       (SkipDirs treediff)) ]},
        None),
     mkTreeDiff (Some tree) (SkipDirs treediff)).
Proof.
  intros Hdeps Htree Hstop run.
  pose proof (ConsumeAll_SkipDirs calls treediff w) as Hdirs.
  fold run in Hdirs.
  assert (SkipDirs (Initialize run.1.2) = SkipDirs treediff) as Hinit
    by exact Hdirs.
  assert (previousTree (Initialize run.1.2) = None) as Hfirst by done.
  revert Hinit Hfirst. generalize (Initialize run.1.2) as item.
  generalize run.2 as w1. intros w1 item Hinit Hfirst.
  consume_paths' item deps w1; congruence.
Qed.

End ConsumeFurther.


Lemma Consume_reads_commit_only_witness :
  Consume sampleDiffTree newTreeDiff
    (<[ "day" := I_int 3 ]> (depsOf 101 (Ok tree1))) []
  = Consume sampleDiffTree newTreeDiff (depsOf 101 (Ok tree1)) [].
Proof.
  apply Consume_reads_commit_only.
  intros key Hkey. unfold Requires in Hkey.
  rewrite elem_of_cons, elem_of_nil in Hkey.
  destruct Hkey as [-> | []]. reflexivity.
Defined.

Lemma Consume_provides_witness :
  exists m,
    (Consume sampleDiffTree (mkTreeDiff (Some tree1) [])
       (depsOf 102 (Ok tree2)) []).1.1 = Returned (Some m, None)
    /\ dom m = {[ "changes" ]}.
Proof.
  eexists. split; [reflexivity |].
  destruct (Consume_provides sampleDiffTree (mkTreeDiff (Some tree1) [])
              (depsOf 102 (Ok tree2)) [] _ eq_refl) as [Hdom _].
  rewrite Hdom. simpl. apply union_empty_r_L.
Defined.

Lemma Consume_branches_witness :
  Consume sampleDiffTree newTreeDiff (depsOf 101 (Ok tree1)) []
  = Consume (fun _ _ => ([], Some (errorString "unreachable"))) newTreeDiff
      (depsOf 101 (Ok tree1)) []
  /\ (Consume sampleDiffTree (mkTreeDiff (Some tree1) [])
        (depsOf 102 (Ok tree2)) []).2 = [].
Proof.
  split.
  - apply (proj1 (Consume_branches sampleDiffTree
                    (fun _ _ => ([], Some (errorString "unreachable")))
                    newTreeDiff (depsOf 101 (Ok tree1)) [])).
    reflexivity.
  - apply (proj2 (Consume_branches sampleDiffTree sampleDiffTree
                    (mkTreeDiff (Some tree1) []) (depsOf 102 (Ok tree2)) [])).
    discriminate.
Defined.

(** A series on [tree1] and [vendorTree], then [Initialize] and [tree2]:
    the two files of [tree2] are listed. *)
Lemma Initialize_forgets_witness :
  (Consume sampleDiffTree
     (Initialize
        (ConsumeAll sampleDiffTree newTreeDiff
           [depsOf 101 (Ok tree1); depsOf 103 (Ok vendorTree)] []).1.2)
     (depsOf 102 (Ok tree2))
     (ConsumeAll sampleDiffTree newTreeDiff
        [depsOf 101 (Ok tree1); depsOf 103 (Ok vendorTree)] []).2).1
  = (Returned
       (Some {[ DependencyTreeChanges :=
                  I_changes [insertion tree2 (sampleFile "a.txt" 20);
                             insertion tree2 (sampleFile "b/c.txt" 11)] ]},
        None),
     mkTreeDiff (Some tree2) []).
Proof.
  exact (Initialize_forgets sampleDiffTree
           [depsOf 101 (Ok tree1); depsOf 103 (Ok vendorTree)]
           newTreeDiff [] (depsOf 102 (Ok tree2)) (mkCommit 102 (Ok tree2))
           tree2 eq_refl eq_refl eq_refl).
Defined.


(** X19: on the first call the test of the code and the test of the
    specification agree without any assumption: every change of the
    listing has a new side. *)
Theorem first_listing_retained (tree : Tree) (files : list File)
    (dirs : list string) :
  Forall wellFormed (map (insertion tree) files)
  /\ applyFilter (map (insertion tree) files) dirs
     = retainedChanges (map (insertion tree) files) dirs.
Proof.
  assert (Forall wellFormed (map (insertion tree) files)) as Hwf.
  { apply Forall_forall. intros c Hc. apply list_elem_of_fmap in Hc as (f & -> & _).
    unfold wellFormed. simpl.
    unfold present. apply negb_true_iff, bool_decide_eq_false. done. }
  split; [done |].
  rewrite applyFilter_as_filter. apply filter_ext_Forall.
  eapply Forall_impl; [exact Hwf |].
  intros c Hc. unfold kept, retained. by rewrite skipped_touches.
Qed.
